(** * Scheduled funds-transfer ledger: a shallow embedding of
      [src/lib/fundsTransfer.js] and the properties of its scheduling and
      execution engine.

    Modelling conventions.
    - The closure variables [accounts], [transactions], [pendingTransactions]
      and [completedTransactions] form the record [State]; every function of
      the module is a computation in the monad [M] that threads this state
      and can raise a JavaScript exception ([Thrown], carrying the state as
      it stood when the exception was raised, because earlier mutations are
      not rolled back).
    - JavaScript objects used as dictionaries are finite maps ([gmap]) on
      string keys; properties inherited from [Object.prototype] are outside
      the model.  A bucket of the pending index is an association list in
      insertion order, because [Object.keys] enumerates it in that order
      (transaction ids are uuid strings, never array indices).
    - Numbers are the integers [Z]: on safe integers the arithmetic of
      JavaScript numbers is exact.  [NaN] appears only as the result of
      [Number(amount)] on a non-numeric submission ([AmountNaN]).
    - The system clock ([getUtcNow]) and the id generator ([uuidv1]) are
      inputs of the functions that call them; the timer started by [init] is
      the operation [OpTick].
    - A [Date] object is the record of what its getters return.
    - The closure variables [history] and [failedTransactions] are never read
      or written by the source and are left out. *)

From Stdlib Require Import ZArith String List Lia.
From stdpp Require Import gmap strings list fin_maps pretty.

Local Open Scope string_scope.
Local Open Scope list_scope.
Local Open Scope Z_scope.

(** ** Constants of the module *)

Definition REFUND : string := "refund".
Definition FUND : string := "fund".
Definition PENDING : string := "pending".
Definition COMPLETED : string := "completed".
Definition REJECTED : string := "rejected".
Definition ERROR : string := "error".

Definition INITIAL_BALANCE : Z := 100.
Definition allowedTransactionTypes : list string := [REFUND; FUND].

(** ** Data *)

(** A valid [Date] object, seen through the getters the module calls. *)
Record Date := {
  getTime : Z;
  getFullYear : Z;
  getMonth : Z;
  getDate : Z;
  getHours : Z;
  getMinutes : Z
}.

(** What a caller can pass where a time is expected. *)
Inductive JsTime :=
| TimeUndefined
| TimeNotDate
| TimeInvalidDate
| TimeDate (d : Date).

(** What a caller can pass as [amount]: nothing, a value that [Number]
    turns into [NaN], or a value that [Number] turns into the integer [n]. *)
Inductive JsAmount :=
| AmountUndefined
| AmountNaN
| AmountNumber (n : Z).

(** The argument of [addTransaction]; [None] is [undefined].  A type or an
    account id that is not a string behaves like a string that is not an
    allowed type, or not the id of an account. *)
Record Request := {
  reqTransactionTime : JsTime;
  reqType : option string;
  reqCredit : option string;
  reqDebit : option string;
  reqAmount : JsAmount
}.

(** The record built by [addTransaction] (lines 309-318). *)
Record Transaction := {
  transactionTime : Date;
  type : string;
  credit : string;
  debit : string;
  id : string;
  amount : Z;
  status : string;
  timeStamp : string
}.

Record Account := {
  balance : Z;
  pastTransactions : list string
}.

(** One bucket of the pending index: transaction id -> copy of the record,
    in insertion order. *)
Abbreviation Bucket := (list (string * Transaction)).

(** The module state.  An entry of [completedTransactions] is a reference
    to the record held by [transactions] under the same id, so a bucket of
    the completed index is the ordered list of those ids. *)
Record State := {
  accounts : gmap string Account;
  transactions : gmap string Transaction;
  pendingTransactions : gmap string Bucket;
  completedTransactions : gmap string (list string)
}.

Definition initialState : State :=
  {| accounts := ∅; transactions := ∅;
     pendingTransactions := ∅; completedTransactions := ∅ |}.

(** ** The state-and-exception monad *)

Inductive Outcome (A : Type) :=
| Returned (s : State) (a : A)
| Thrown (s : State).
Arguments Returned {A} s a.
Arguments Thrown {A} s.

Definition M (A : Type) : Type := State → Outcome A.

Definition finalState {A} (o : Outcome A) : State :=
  match o with Returned s _ => s | Thrown s => s end.

#[global] Instance M_ret : MRet M := λ A a s, Returned s a.
#[global] Instance M_bind : MBind M := λ A B k m s,
  match m s with
  | Returned s' a => k a s'
  | Thrown s' => Thrown s'
  end.

Definition get : M State := λ s, Returned s s.
Definition modify (f : State → State) : M unit := λ s, Returned (f s) tt.

(** The imperative [forEach]/[map] over an array of keys. *)
Fixpoint forEach {A} (l : list A) (body : A → M unit) : M unit :=
  match l with
  | [] => mret tt
  | x :: l' => body x ;; forEach l' body
  end.

(** ** Field updates *)

Definition setBalance (b : Z) (a : Account) : Account :=
  {| balance := b; pastTransactions := pastTransactions a |}.
Definition setPastTransactions (l : list string) (a : Account) : Account :=
  {| balance := balance a; pastTransactions := l |}.
Definition setStatus (st : string) (t : Transaction) : Transaction :=
  {| transactionTime := transactionTime t; type := type t; credit := credit t;
     debit := debit t; id := id t; amount := amount t; status := st;
     timeStamp := timeStamp t |}.

Definition setAccounts (f : gmap string Account → gmap string Account) (s : State) : State :=
  {| accounts := f (accounts s); transactions := transactions s;
     pendingTransactions := pendingTransactions s;
     completedTransactions := completedTransactions s |}.
Definition setTransactions (f : gmap string Transaction → gmap string Transaction) (s : State) : State :=
  {| accounts := accounts s; transactions := f (transactions s);
     pendingTransactions := pendingTransactions s;
     completedTransactions := completedTransactions s |}.
Definition setPending (f : gmap string Bucket → gmap string Bucket) (s : State) : State :=
  {| accounts := accounts s; transactions := transactions s;
     pendingTransactions := f (pendingTransactions s);
     completedTransactions := completedTransactions s |}.
Definition setCompleted (f : gmap string (list string) → gmap string (list string)) (s : State) : State :=
  {| accounts := accounts s; transactions := transactions s;
     pendingTransactions := pendingTransactions s;
     completedTransactions := f (completedTransactions s) |}.

(** ** Objects keyed by transaction id *)

Definition bucketKeys (b : Bucket) : list string := b.*1.

(** [delete b[k]] *)
Definition bucketDelete (k : string) (b : Bucket) : Bucket :=
  filter (λ e, e.1 ≠ k) b.

(** [b[k] = v]: an existing key keeps its place, a new key goes last. *)
Fixpoint bucketSet (k : string) (v : Transaction) (b : Bucket) : Bucket :=
  match b with
  | [] => [(k, v)]
  | e :: b' => if decide (e.1 = k) then (k, v) :: b' else e :: bucketSet k v b'
  end.

(** [c[k] = <reference to transactions[k]>] *)
Definition refSet (k : string) (c : list string) : list string :=
  if decide (k ∈ c) then c else c ++ [k].

(** ** Property accesses that raise a [TypeError] on [undefined] *)

(** [accounts[k].<field> = ...] *)
Definition updateAccount (k : string) (f : Account → Account) : M unit := λ s,
  match accounts s !! k with
  | Some a => Returned (setAccounts <[k := f a]> s) tt
  | None => Thrown s
  end.

(** [accounts[k]], about to be dereferenced *)
Definition readAccount (k : string) : M Account := λ s,
  match accounts s !! k with
  | Some a => Returned s a
  | None => Thrown s
  end.

(** [transactions[k].status = st] *)
Definition writeStatus (k : string) (st : string) : M unit := λ s,
  match transactions s !! k with
  | Some t => Returned (setTransactions <[k := setStatus st t]> s) tt
  | None => Thrown s
  end.

(** [delete pendingTransactions[ts][k]] *)
Definition deletePending (ts k : string) : M unit := λ s,
  match pendingTransactions s !! ts with
  | Some b => Returned (setPending <[ts := bucketDelete k b]> s) tt
  | None => Thrown s
  end.

(** ** Time stamps (lines 69, 102, 120-133) *)

Definition isValidDate (date : JsTime) : bool :=
  match date with TimeDate _ => true | _ => false end.

Definition formatTimeStampNumber (num : Z) : string :=
  if decide (num < 10) then "0" +:+ pretty num else pretty num.

(** [None] is the [false] the source returns for an invalid date. *)
Definition generateTimeStamp (time : JsTime) : option string :=
  match time with
  | TimeDate d =>
      let timeStampYear := formatTimeStampNumber (getFullYear d - 2000) in
      let timeStampMonth := formatTimeStampNumber (getMonth d + 1) in
      let timeStampDay := formatTimeStampNumber (getDate d) in
      let timeStampHour := formatTimeStampNumber (getHours d) in
      let timeStampMinute := formatTimeStampNumber (getMinutes d) in
      Some (timeStampYear +:+ "-" +:+ timeStampMonth +:+ "-" +:+ timeStampDay
            +:+ "-" +:+ timeStampHour +:+ "-" +:+ timeStampMinute)
  | _ => None
  end.

(** ** Execution-time validation (lines 144-185) *)

(** The record was stored with [amount: Number(amount)] after the [isNaN]
    check of the submission, so the [isNaN] check of line 158 never fires
    and has no branch here. *)
Definition validateTransaction (s : State) (transaction : option Transaction) : bool :=
  match transaction with
  | None => false
  | Some t =>
      if decide (amount t = 0 ∨ credit t = EmptyString ∨ debit t = EmptyString) then false
      else if decide (amount t < 0) then false
      else match accounts s !! credit t, accounts s !! debit t with
           | Some c, Some _ =>
               if decide (balance c < 0) then false
               else if decide (balance c - amount t < 0) then false
               else true
           | _, _ => false
           end
  end.

(** ** Execution of one transaction (lines 194-240) *)

Definition executeTransaction (transactionId : string) : M string :=
  if decide (transactionId = EmptyString) then mret ERROR else
  s ← get;
  match transactions s !! transactionId with
  | None => mret ERROR
  | Some transaction =>
      let amount := amount transaction in
      let credit := credit transaction in
      let debit := debit transaction in
      let timeStamp := timeStamp transaction in
      if negb (validateTransaction s (Some transaction)) then mret ERROR else
      c ← readAccount credit;
      updateAccount credit (setBalance (balance c - amount));;
      d ← readAccount debit;
      updateAccount debit (setBalance (balance d + amount));;
      c ← readAccount credit;
      updateAccount credit
        (setPastTransactions (filter (λ i, i ≠ transactionId) (pastTransactions c)));;
      c ← readAccount credit;
      updateAccount debit
        (setPastTransactions (filter (λ i, i ≠ transactionId) (pastTransactions c)));;
      c ← readAccount credit;
      updateAccount credit (setPastTransactions (pastTransactions c ++ [transactionId]));;
      d ← readAccount debit;
      updateAccount debit (setPastTransactions (pastTransactions d ++ [transactionId]));;
      writeStatus transactionId COMPLETED;;
      deletePending timeStamp transactionId;;
      modify (setCompleted (λ c,
        match c !! timeStamp with
        | Some _ => c
        | None => <[timeStamp := []]> c
        end));;
      modify (setCompleted (alter (refSet transactionId) timeStamp));;
      mret COMPLETED
  end.

(** ** The scheduled-jobs pass (lines 83-98) and the tick (lines 71-81) *)

(** The callback of the [map] over the keys of the bucket. *)
Definition jobStep (nowTimeStamp transactionId : string) : M unit :=
  r ← executeTransaction transactionId;
  if decide (r = ERROR) then
    deletePending nowTimeStamp transactionId;;
    writeStatus transactionId REJECTED
  else mret tt.

(** For an invalid date the source looks up [pendingTransactions[false]],
    which is undefined because every key of the index is a time stamp. *)
Definition executeScheduledJobs (now : JsTime) : M unit :=
  match generateTimeStamp now with
  | None => mret tt
  | Some nowTimeStamp =>
      s ← get;
      match pendingTransactions s !! nowTimeStamp with
      | None => mret tt
      | Some b => forEach (bucketKeys b) (jobStep nowTimeStamp)
      end
  end.

(** [now] is the first clock reading, [previousMinute] the second one after
    [setMinutes(now.getMinutes() - 1)]. *)
Definition timeTickCheck (now previousMinute : Date) : M unit :=
  executeScheduledJobs (TimeDate now);;
  executeScheduledJobs (TimeDate previousMinute).

(** ** Initialisation (lines 44-59) *)

Definition init : M unit :=
  modify (setAccounts (λ _,
    <["A" := {| balance := INITIAL_BALANCE; pastTransactions := [] |}]>
    (<["B" := {| balance := 0; pastTransactions := [] |}]> ∅))).

(** ** Submission (lines 261-338) *)

(** [now] is the clock reading of line 295 and [newId] the result of
    [uuidv1()] on line 314. *)
Definition addTransaction (transaction : Request) (now : Date) (newId : string) : M string :=
  match reqTransactionTime transaction, reqType transaction,
        reqCredit transaction, reqDebit transaction, reqAmount transaction with
  | TimeUndefined, _, _, _, _
  | _, None, _, _, _
  | _, _, None, _, _
  | _, _, _, None, _
  | _, _, _, _, AmountUndefined => mret ERROR
  | transactionTime, Some type, Some credit, Some debit, amount =>
      if negb (isValidDate transactionTime) then mret ERROR else
      if decide (type ∉ allowedTransactionTypes) then mret ERROR else
      s ← get;
      if decide (accounts s !! credit = None ∨ accounts s !! debit = None)
      then mret ERROR else
      match amount with
      | AmountNumber n =>
          match transactionTime with
          | TimeDate t =>
              if decide (getTime now - getTime t > 0) then mret ERROR else
              match generateTimeStamp transactionTime with
              | None => mret ERROR
              | Some timeStamp =>
                  let newTransaction :=
                    {| transactionTime := t; type := type; credit := credit;
                       debit := debit; id := newId; amount := n;
                       status := PENDING; timeStamp := timeStamp |} in
                  modify (setPending (λ p,
                    match p !! timeStamp with
                    | Some _ => p
                    | None => <[timeStamp := []]> p
                    end));;
                  modify (setPending (alter (bucketSet newId newTransaction) timeStamp));;
                  modify (setTransactions <[newId := newTransaction]>);;
                  (if decide (generateTimeStamp (TimeDate now) = Some timeStamp)
                   then executeScheduledJobs (TimeDate now)
                   else mret tt);;
                  mret newId
              end
          | _ => mret ERROR (* excluded by [isValidDate] above *)
          end
      | _ => mret ERROR (* [isNaN(Number(amount))] *)
      end
  end.

(** ** Read-only accessors (lines 340-344) *)

(** [None] is the message string the source returns for an unknown id. *)
Definition getTransaction (transactionId : string) (s : State) : option Transaction :=
  transactions s !! transactionId.
Definition getAccountData (accountId : string) (s : State) : option Account :=
  accounts s !! accountId.
Definition getHistory (s : State) : gmap string (list string) :=
  completedTransactions s.

(** * Vocabulary of the properties *)

(** ** Closed forms of the states a call leaves *)

(** The account table after lines 215-224, for the credit account [c] and
    the debit account [d] read before the update. *)
Definition transferAccounts (tid : string) (t : Transaction) (c d : Account)
    (accs : gmap string Account) : gmap string Account :=
  let l := filter (λ i, i ≠ tid) (pastTransactions c) in
  let l' := filter (λ i, i ≠ tid) l in
  if decide (credit t = debit t) then
    <[credit t := {| balance := balance c - amount t + amount t;
                     pastTransactions := (l' ++ [tid]) ++ [tid] |}]> accs
  else
    <[debit t := {| balance := balance d + amount t;
                    pastTransactions := l' ++ [tid] |}]>
    (<[credit t := {| balance := balance c - amount t;
                      pastTransactions := l ++ [tid] |}]> accs).

(** The completed index after lines 230-236. *)
Definition completedIndex (tid ts : string) (c : gmap string (list string)) :=
  alter (refSet tid) ts (match c !! ts with Some _ => c | None => <[ts := []]> c end).

(** The state in which line 228 raises when the record's bucket is missing:
    balances, lists and status are already written. *)
Definition appliedState (tid : string) (t : Transaction) (c d : Account) (s : State) : State :=
  {| accounts := transferAccounts tid t c d (accounts s);
     transactions := <[tid := setStatus COMPLETED t]> (transactions s);
     pendingTransactions := pendingTransactions s;
     completedTransactions := completedTransactions s |}.

(** The state a successful execution returns, [b] being the record's
    bucket before the call. *)
Definition completedState (tid : string) (t : Transaction) (c d : Account) (b : Bucket) (s : State) : State :=
  {| accounts := transferAccounts tid t c d (accounts s);
     transactions := <[tid := setStatus COMPLETED t]> (transactions s);
     pendingTransactions := <[timeStamp t := bucketDelete tid b]> (pendingTransactions s);
     completedTransactions := completedIndex tid (timeStamp t) (completedTransactions s) |}.

(** The state after the rejection branch of the callback (lines 93-94). *)
Definition rejectedState (k : string) (t : Transaction) (b : Bucket) (s : State) : State :=
  setTransactions <[k := setStatus REJECTED t]>
    (setPending <[timeStamp t := bucketDelete k b]> s).

(** The record of line 309. *)
Definition newRecord (t : Date) (ty c d newId : string) (n : Z) (ts : string) : Transaction :=
  {| transactionTime := t; type := ty; credit := c; debit := d; id := newId;
     amount := n; status := PENDING; timeStamp := ts |}.

(** The state after lines 320-326: the bucket exists, the copy of the new
    record is indexed in it and the record is in the table. *)
Definition submittedState (newTransaction : Transaction) (s : State) : State :=
  let timeStamp := timeStamp newTransaction in
  let newId := id newTransaction in
  setTransactions <[newId := newTransaction]>
    (setPending (alter (bucketSet newId newTransaction) timeStamp)
       (setPending (λ p, match p !! timeStamp with
                         | Some _ => p
                         | None => <[timeStamp := []]> p
                         end) s)).

(** Lines 329-337, run on the submitted state. *)
Definition afterSubmission (now : Date) (newTransaction : Transaction) : M string :=
  (if decide (generateTimeStamp (TimeDate now) = Some (timeStamp newTransaction))
   then executeScheduledJobs (TimeDate now)
   else mret tt);;
  mret (id newTransaction).



(** ** The store invariant *)

(** Index and table agree: the keys of a bucket are distinct, every indexed
    id has a PENDING record scheduled for that bucket, and every record has
    one of the three statuses and its bucket, in which it is indexed while it
    is PENDING. *)
Record Inv (s : State) : Prop := {
  inv_nodup : ∀ ts b,
    pendingTransactions s !! ts = Some b → NoDup (bucketKeys b);
  inv_pending : ∀ ts b k,
    pendingTransactions s !! ts = Some b → k ∈ bucketKeys b →
    ∃ t, transactions s !! k = Some t ∧ timeStamp t = ts ∧ status t = PENDING;
  inv_record : ∀ k t,
    transactions s !! k = Some t →
    (status t = PENDING ∨ status t = COMPLETED ∨ status t = REJECTED) ∧
    ∃ b, pendingTransactions s !! timeStamp t = Some b ∧
         (status t = PENDING → k ∈ bucketKeys b)
}.

(** The id has an entry in some bucket of the pending index. *)
Definition indexedPending (k : string) (s : State) : Prop :=
  ∃ ts b, pendingTransactions s !! ts = Some b ∧ k ∈ bucketKeys b.

(** ** What a pass does to the table and to the accounts *)

(** How a run of callbacks over the ids [l] changes the table: records
    outside [l] are untouched, records in [l] go from PENDING to COMPLETED or
    REJECTED. *)
Definition finished (ts : string) (l : list string)
    (T T' : gmap string Transaction) : Prop :=
  ∀ k, (k ∉ l → T' !! k = T !! k) ∧
       (k ∈ l → ∃ t st, T !! k = Some t ∧ status t = PENDING ∧
                  timeStamp t = ts ∧ (st = COMPLETED ∨ st = REJECTED) ∧
                  T' !! k = Some (setStatus st t)).

(** What a pass over the bucket of [now] does in a state that satisfies the
    invariant: it returns, keeps the invariant, empties the bucket and
    finishes every record that was indexed there. *)
Definition passEffect (now : JsTime) (s s' : State) : Prop :=
  match generateTimeStamp now with
  | Some ts =>
      match pendingTransactions s !! ts with
      | Some b =>
          pendingTransactions s' = <[ts := []]> (pendingTransactions s) ∧
          finished ts (bucketKeys b) (transactions s) (transactions s')
      | None => s' = s
      end
  | None => s' = s
  end.

(** One step of the status of a record: unchanged, or from PENDING to a
    terminal status with every other field kept. *)
Definition statusStep (t t' : Transaction) : Prop :=
  t' = t ∨
  (status t = PENDING ∧ ∃ st, (st = COMPLETED ∨ st = REJECTED) ∧ t' = setStatus st t).

(** Only [init] creates accounts; every other function keeps the set of
    account ids, whether it returns or raises. *)
Definition keepsAccounts {A} (m : M A) : Prop :=
  ∀ s, dom (accounts (finalState (m s))) = dom (accounts s).


(** ** The submission-time checks *)

(** The submission-time checks of lines 263-307, as one predicate. *)
Definition rejectedSubmission (transaction : Request) (now : Date) (s : State) : Prop :=
  reqTransactionTime transaction = TimeUndefined ∨
  reqType transaction = None ∨
  reqCredit transaction = None ∨
  reqDebit transaction = None ∨
  reqAmount transaction = AmountUndefined ∨
  isValidDate (reqTransactionTime transaction) = false ∨
  (∃ ty, reqType transaction = Some ty ∧ ty ∉ allowedTransactionTypes) ∨
  (∃ c, reqCredit transaction = Some c ∧ accounts s !! c = None) ∨
  (∃ d, reqDebit transaction = Some d ∧ accounts s !! d = None) ∨
  reqAmount transaction = AmountNaN ∨
  (∃ t, reqTransactionTime transaction = TimeDate t ∧ getTime now - getTime t > 0).

(** ** The exported operations and the states they reach *)

(** A call of an exported function, or one firing of the timer that [init]
    starts.  The clock readings and the uuid are part of the call. *)
Inductive Op :=
| OpInit
| OpAddTransaction (transaction : Request) (now : Date) (newId : string)
| OpExecuteTransaction (transactionId : string)
| OpTick (now previousMinute : Date).

(** The state the call leaves behind, whether it returns or raises. *)
Definition runOp (o : Op) (s : State) : State :=
  match o with
  | OpInit => finalState (init s)
  | OpAddTransaction transaction now newId =>
      finalState (addTransaction transaction now newId s)
  | OpExecuteTransaction transactionId =>
      finalState (executeTransaction transactionId s)
  | OpTick now previousMinute =>
      finalState (timeTickCheck now previousMinute s)
  end.

(** [uuidv1] never returns an id it has returned before. *)
Definition admissible (o : Op) (s : State) : Prop :=
  match o with
  | OpAddTransaction _ _ newId => transactions s !! newId = None
  | _ => True
  end.

Inductive reachable : State → Prop :=
| reachable_initial : reachable initialState
| reachable_step o s : reachable s → admissible o s → reachable (runOp o s).

(** ** The sum of the balances *)



(** ** Sample runs *)

(** 3 November 2026, 07:mm:ss, on a machine whose local time is UTC
    (1793689200000 is the time value of 07:00:00 that day). *)
Definition sampleDate (minutes seconds : Z) : Date :=
  {| getTime := 1793689200000 + minutes * 60000 + seconds * 1000;
     getFullYear := 2026; getMonth := 10; getDate := 3;
     getHours := 7; getMinutes := minutes |}.

(** 07:05:30 and 07:07:00. *)
Definition sampleNow : Date := sampleDate 5 30.
Definition sampleLater : Date := sampleDate 7 0.

Definition sampleRequest (when : Date) (c d : string) (n : Z) : Request :=
  {| reqTransactionTime := TimeDate when; reqType := Some FUND;
     reqCredit := Some c; reqDebit := Some d; reqAmount := AmountNumber n |}.

(** After [init]: A holds 100, B holds 0. *)
Definition seededLedger : State := runOp OpInit initialState.

(** A transfer of 10 from A to B waits in the bucket of [sampleLater]. *)
Definition pendingLedger : State :=
  runOp (OpAddTransaction (sampleRequest sampleLater "A" "B" 10) sampleNow "t1")
    seededLedger.


(** "t1" (50 from B to A, now) has been rejected for lack of funds, then "t2"
    (60 from A to B, now) has completed: A holds 40, B holds 60. *)
Definition rejectedLedger : State :=
  runOp (OpAddTransaction (sampleRequest sampleNow "A" "B" 60) sampleNow "t2")
    (runOp (OpAddTransaction (sampleRequest sampleNow "B" "A" 50) sampleNow "t1")
       seededLedger).

(** "t1" (10 from A to A, now) has completed; "t2" (10 from A to B) waits in
    the bucket of [sampleLater]. *)
Definition selfTransferLedger : State :=
  runOp (OpAddTransaction (sampleRequest sampleLater "A" "B" 10) sampleNow "t2")
    (runOp (OpAddTransaction (sampleRequest sampleNow "A" "A" 10) sampleNow "t1")
       seededLedger).


(** ** Vocabulary of the further properties *)

(** The ranges of the getters of a [Date] in the years 2000 to 2099. *)
Definition calendarDate (d : Date) : Prop :=
  2000 ≤ getFullYear d < 2100 ∧ 0 ≤ getMonth d < 12 ∧ 1 ≤ getDate d ≤ 31 ∧
  0 ≤ getHours d < 24 ∧ 0 ≤ getMinutes d < 60.

(** The two dates fall in the same minute of the same day. *)
Definition sameMinute (d1 d2 : Date) : Prop :=
  getFullYear d1 = getFullYear d2 ∧ getMonth d1 = getMonth d2 ∧
  getDate d1 = getDate d2 ∧ getHours d1 = getHours d2 ∧
  getMinutes d1 = getMinutes d2.



(** The id is listed in the completed index under the time stamp. *)
Definition inHistory (ts k : string) (s : State) : Prop :=
  ∃ l, getHistory s !! ts = Some l ∧ k ∈ l.

(** The completed index lists, under each time stamp, exactly the ids of
    the COMPLETED records with that time stamp. *)
Definition historyAgrees (s : State) : Prop :=
  ∀ ts k, inHistory ts k s ↔
          ∃ t, transactions s !! k = Some t ∧ status t = COMPLETED ∧ timeStamp t = ts.

(** The history agrees with the statuses and lists no id twice. *)
Definition historyInvariant (s : State) : Prop :=
  historyAgrees s ∧ ∀ ts l, getHistory s !! ts = Some l → NoDup l.

(** * Properties *)

Arguments validateTransaction : simpl never.
Arguments generateTimeStamp : simpl never.

(** ** Closed form of one execution *)

Lemma validateTransaction_true s t :
  validateTransaction s (Some t) = true →
  ∃ c d, accounts s !! credit t = Some c ∧ accounts s !! debit t = Some d ∧
         0 < amount t ∧ credit t ≠ EmptyString ∧ debit t ≠ EmptyString ∧ 0 ≤ balance c ∧ amount t ≤ balance c.
Proof.
  unfold validateTransaction.
  repeat case_decide; try done.
  destruct (accounts s !! credit t) as [c|] eqn:Hc; [|done].
  destruct (accounts s !! debit t) as [d|] eqn:Hd; [|done].
  repeat case_decide; try done.
  intros _. exists c, d. repeat split; try done; try lia.
  - intros ?. tauto.
  - intros ?. tauto.
Qed.

Ltac mrun := unfold mbind, M_bind, mret, M_ret, get, modify, readAccount, updateAccount, writeStatus, deletePending; simpl.

Lemma executeTransaction_valid tid s t c d :
  tid ≠ EmptyString → transactions s !! tid = Some t →
  validateTransaction s (Some t) = true →
  accounts s !! credit t = Some c → accounts s !! debit t = Some d →
  executeTransaction tid s =
    match pendingTransactions s !! timeStamp t with
    | Some b => Returned (completedState tid t c d b s) COMPLETED
    | None => Thrown (appliedState tid t c d s)
    end.
Proof.
  intros Hid Ht Hv Hc Hd. unfold executeTransaction.
  rewrite decide_False by done. mrun. rewrite Ht, Hv. simpl.
  unfold completedState, appliedState, transferAccounts, completedIndex.
  destruct (decide (credit t = debit t)) as [e|n].
  - rewrite <- e in *. assert (d = c) as -> by congruence.
    repeat (first [rewrite Hc | rewrite lookup_insert_eq | rewrite Ht ]; simpl).
    destruct (pendingTransactions s !! timeStamp t); simpl;
      unfold setPending, setTransactions, setAccounts, setCompleted; simpl;
      rewrite !insert_insert_eq; done.
  - repeat (first [rewrite Hc | rewrite Hd | rewrite Ht | rewrite lookup_insert_eq
                  | rewrite lookup_insert_ne by done ]; simpl).
    destruct (pendingTransactions s !! timeStamp t); simpl;
      unfold setPending, setTransactions, setAccounts, setCompleted; simpl.
    all: f_equal; f_equal; apply map_eq; intros k; rewrite !lookup_insert;
      repeat case_decide; subst; first [done | congruence].
Qed.

Lemma executeTransaction_invalid tid s :
  tid = EmptyString ∨ transactions s !! tid = None ∨
  (∃ t, transactions s !! tid = Some t ∧ validateTransaction s (Some t) = false) →
  executeTransaction tid s = Returned s ERROR.
Proof.
  unfold executeTransaction. intros [->|H]; [done|].
  case_decide; [done|]. mrun.
  destruct H as [->|(t & -> & ->)]; done.
Qed.

(** Every call of [executeTransaction] falls in one of three cases. *)
Lemma executeTransaction_cases tid s :
  executeTransaction tid s = Returned s ERROR ∨
  ∃ t c d, tid ≠ EmptyString ∧ transactions s !! tid = Some t ∧
    validateTransaction s (Some t) = true ∧
    accounts s !! credit t = Some c ∧ accounts s !! debit t = Some d ∧
    ((∃ b, pendingTransactions s !! timeStamp t = Some b ∧
        executeTransaction tid s = Returned (completedState tid t c d b s) COMPLETED) ∨
     (pendingTransactions s !! timeStamp t = None ∧
        executeTransaction tid s = Thrown (appliedState tid t c d s))).
Proof.
  destruct (decide (tid = EmptyString)) as [->|Hid]; [by left|].
  destruct (transactions s !! tid) as [t|] eqn:Ht;
    [|left; apply executeTransaction_invalid; auto].
  destruct (validateTransaction s (Some t)) eqn:Hv;
    [|left; apply executeTransaction_invalid; eauto].
  right. destruct (validateTransaction_true _ _ Hv) as (c & d & Hc & Hd & _).
  exists t, c, d. repeat split; try done.
  rewrite (executeTransaction_valid tid s t c d) by done.
  destruct (pendingTransactions s !! timeStamp t); eauto.
Qed.

(** ** Buckets *)

Lemma bucketKeys_delete k (b : Bucket) :
  bucketKeys (bucketDelete k b) = filter (λ i, i ≠ k) (bucketKeys b).
Proof.
  unfold bucketKeys, bucketDelete. induction b as [|e b IH]; [done|].
  rewrite fmap_cons, !filter_cons.
  destruct (decide (e.1 ≠ k)); [rewrite fmap_cons|]; by rewrite IH.
Qed.

Lemma elem_of_bucketKeys_delete k k' (b : Bucket) :
  k' ∈ bucketKeys (bucketDelete k b) ↔ k' ∈ bucketKeys b ∧ k' ≠ k.
Proof. rewrite bucketKeys_delete, list_elem_of_filter. tauto. Qed.

Lemma NoDup_bucketKeys_delete k (b : Bucket) :
  NoDup (bucketKeys b) → NoDup (bucketKeys (bucketDelete k b)).
Proof. rewrite bucketKeys_delete. apply NoDup_filter. Qed.

Lemma bucketSet_fresh k v (b : Bucket) :
  k ∉ bucketKeys b → bucketSet k v b = b ++ [(k, v)].
Proof.
  unfold bucketKeys. induction b as [|e b IH]; [done|].
  simpl. rewrite not_elem_of_cons. intros [Hne Hb].
  rewrite decide_False by done. by rewrite IH.
Qed.

Lemma bucketKeys_snoc k v (b : Bucket) :
  bucketKeys (b ++ [(k, v)]) = bucketKeys b ++ [k].
Proof. unfold bucketKeys. by rewrite fmap_app. Qed.

Lemma bucketDelete_twice k (l : list string) (b : Bucket) :
  filter (λ e, e.1 ∉ l) (bucketDelete k b) = filter (λ e, e.1 ∉ k :: l) b.
Proof.
  unfold bucketDelete. induction b as [|e b IH]; [done|].
  rewrite !filter_cons.
  destruct (decide (e.1 ≠ k)) as [Hne|Heq].
  - rewrite filter_cons. rewrite IH.
    destruct (decide (e.1 ∉ l)) as [Hl|Hl].
    + rewrite decide_True; [done|]. rewrite not_elem_of_cons. done.
    + rewrite decide_False; [done|]. rewrite not_elem_of_cons. tauto.
  - rewrite IH. rewrite decide_False; [done|].
    rewrite not_elem_of_cons. tauto.
Qed.

Lemma bucket_filter_all (b : Bucket) :
  filter (λ e, e.1 ∉ bucketKeys b) b = [].
Proof.
  assert (∀ l : list string, (∀ e, e ∈ b → e.1 ∈ l) →
            filter (λ e, e.1 ∉ l) b = []) as H.
  { intros l. induction b as [|e b IH]; [done|]. intros Hl.
    rewrite filter_cons, decide_False.
    - apply IH. intros e' He'. apply Hl. by right.
    - intros Hn. apply Hn, Hl. by left. }
  apply H. intros e He. unfold bucketKeys. by apply list_elem_of_fmap_2.
Qed.

Lemma bucket_filter_none (b : Bucket) :
  filter (λ e, e.1 ∉ @nil string) b = b.
Proof.
  induction b as [|e b IH]; [done|].
  rewrite filter_cons, decide_True by apply not_elem_of_nil. by rewrite IH.
Qed.

(** ** The store invariant *)

Lemma Inv_initialState : Inv initialState.
Proof. split; simpl; intros *; by rewrite lookup_empty. Qed.

(** The invariant only reads the table and the index. *)
Lemma Inv_ext s s' :
  transactions s' = transactions s →
  pendingTransactions s' = pendingTransactions s →
  Inv s → Inv s'.
Proof.
  intros HT HP [H1 H2 H3]. split; rewrite ?HT, ?HP; auto.
Qed.

(** Giving a record a terminal status and dropping it from its bucket keeps
    the invariant, whatever its status was. *)
Lemma Inv_finish s s' k t b st :
  Inv s →
  transactions s !! k = Some t →
  pendingTransactions s !! timeStamp t = Some b →
  st = COMPLETED ∨ st = REJECTED →
  transactions s' = <[k := setStatus st t]> (transactions s) →
  pendingTransactions s' = <[timeStamp t := bucketDelete k b]> (pendingTransactions s) →
  Inv s'.
Proof.
  intros [H1 H2 H3] Ht Hb Hst HT HP. split.
  - intros ts b'. rewrite HP, lookup_insert. case_decide as Hts.
    + intros [= <-]. apply NoDup_bucketKeys_delete. eauto.
    + eauto.
  - intros ts b' k'. rewrite HP, HT, lookup_insert. case_decide as Hts.
    + intros [= <-]. rewrite elem_of_bucketKeys_delete. intros [Hk' Hne].
      rewrite lookup_insert_ne by done. subst ts. eauto.
    + intros Hb' Hk'. destruct (H2 _ _ _ Hb' Hk') as (t' & Ht' & Hts' & Hp').
      rewrite lookup_insert_ne; [eauto|]. intros ->. congruence.
  - intros k' t'. rewrite HT, HP, lookup_insert. case_decide as Hk.
    + intros [= <-]. simpl. split.
      * destruct Hst as [->| ->]; auto.
      * exists (bucketDelete k b). rewrite lookup_insert_eq. split; [done|].
        intros ->. destruct Hst as [?|?]; discriminate.
    + intros Ht'. destruct (H3 _ _ Ht') as (Hs' & b' & Hb' & Hin). split; [done|].
      rewrite lookup_insert. case_decide as Hts.
      * exists (bucketDelete k b). split; [done|]. intros Hp.
        rewrite elem_of_bucketKeys_delete. split; [|congruence].
        rewrite Hts in Hb. assert (b' = b) as -> by congruence. auto.
      * eauto.
Qed.

(** ** One entry of a pass *)

Lemma jobStep_unfold ts k s :
  jobStep ts k s =
  match executeTransaction k s with
  | Returned s' r =>
      if decide (r = ERROR)
      then (deletePending ts k ;; writeStatus k REJECTED) s'
      else Returned s' tt
  | Thrown s' => Thrown s'
  end.
Proof.
  unfold jobStep, mbind, M_bind. destruct (executeTransaction k s); [|done].
  by case_decide.
Qed.

(** In a state that satisfies the invariant, the callback on an indexed id
    returns, finishes a PENDING record and removes it from the bucket. *)
Lemma jobStep_spec s ts b k :
  Inv s → pendingTransactions s !! ts = Some b → k ∈ bucketKeys b →
  ∃ t, transactions s !! k = Some t ∧ status t = PENDING ∧ timeStamp t = ts ∧
    ((executeTransaction k s = Returned s ERROR ∧
      jobStep ts k s = Returned (rejectedState k t b s) tt) ∨
     (∃ c d, executeTransaction k s = Returned (completedState k t c d b s) COMPLETED ∧
      jobStep ts k s = Returned (completedState k t c d b s) tt)).
Proof.
  intros HI Hb Hk.
  destruct (inv_pending _ HI _ _ _ Hb Hk) as (t & Ht & Hts & Hp).
  exists t. repeat split; try done. rewrite jobStep_unfold.
  destruct (executeTransaction_cases k s)
    as [He|(t' & c & d & Hid & Ht' & Hv & Hc & Hd & [(b' & Hb' & He)|[Hb' He]])].
  - left. split; [done|]. rewrite He, decide_True by done.
    unfold mbind, M_bind, deletePending, writeStatus. rewrite Hb. simpl.
    rewrite Ht. by subst ts.
  - right. assert (t' = t) as -> by congruence. subst ts.
    assert (b' = b) as -> by congruence.
    exists c, d. split; [done|]. by rewrite He.
  - assert (t' = t) as -> by congruence. congruence.
Qed.

Lemma rejectedState_Inv s k t b :
  Inv s → transactions s !! k = Some t →
  pendingTransactions s !! timeStamp t = Some b →
  Inv (rejectedState k t b s).
Proof. intros HI Ht Hb. eapply (Inv_finish s _ k t b REJECTED); eauto. Qed.

Lemma completedState_Inv s k t c d b :
  Inv s → transactions s !! k = Some t →
  pendingTransactions s !! timeStamp t = Some b →
  Inv (completedState k t c d b s).
Proof. intros HI Ht Hb. eapply (Inv_finish s _ k t b COMPLETED); eauto. Qed.

(** ** A whole pass *)


Lemma forEach_jobStep s ts b l :
  Inv s → pendingTransactions s !! ts = Some b →
  NoDup l → l ⊆ bucketKeys b →
  ∃ s', forEach l (jobStep ts) s = Returned s' tt ∧ Inv s' ∧
    pendingTransactions s' =
      <[ts := filter (λ e, e.1 ∉ l) b]> (pendingTransactions s) ∧
    finished ts l (transactions s) (transactions s').
Proof.
  revert s b. induction l as [|k l IH]; intros s b HI Hb Hnd Hsub.
  - exists s. split; [done|]. split; [done|]. split.
    + by rewrite bucket_filter_none, insert_id.
    + intros k. split; [done|]. intros Hk. by apply elem_of_nil in Hk.
  - apply NoDup_cons in Hnd as [Hkl Hnd].
    assert (k ∈ bucketKeys b) as Hk by (apply Hsub; by left).
    destruct (jobStep_spec s ts b k HI Hb Hk) as (t & Ht & Hp & Hts & Hstep).
    assert (∃ s1 st, jobStep ts k s = Returned s1 tt ∧ Inv s1 ∧
              (st = COMPLETED ∨ st = REJECTED) ∧
              transactions s1 = <[k := setStatus st t]> (transactions s) ∧
              pendingTransactions s1 = <[ts := bucketDelete k b]> (pendingTransactions s))
      as (s1 & st & Hj & HI1 & Hst & HT1 & HP1).
    { subst ts. destruct Hstep as [[_ Hj]|(c & d & _ & Hj)].
      - eexists _, REJECTED. split; [exact Hj|].
        split; [by apply rejectedState_Inv|]. auto.
      - eexists _, COMPLETED. split; [exact Hj|].
        split; [by apply completedState_Inv|]. auto. }
    destruct (IH s1 (bucketDelete k b)) as (s' & Hf & HI' & HP' & HT'); try done.
    { by rewrite HP1, lookup_insert_eq. }
    { intros k' Hk'. rewrite elem_of_bucketKeys_delete. split.
      - apply Hsub. by right.
      - intros ->. done. }
    exists s'. split; [|split; [done|split]].
    + simpl. unfold mbind, M_bind. by rewrite Hj.
    + rewrite HP', HP1, insert_insert_eq. by rewrite bucketDelete_twice.
    + intros k'. destruct (HT' k') as [Hout Hin]. split.
      * rewrite not_elem_of_cons. intros [Hne Hnl].
        rewrite Hout, HT1 by done. by rewrite lookup_insert_ne.
      * rewrite elem_of_cons. intros [->|Hl].
        -- exists t, st. repeat split; try done.
           rewrite Hout, HT1 by done. by rewrite lookup_insert_eq.
        -- destruct (Hin Hl) as (t' & st' & Ht' & ?).
           exists t', st'. split; [|done].
           rewrite HT1, lookup_insert_ne in Ht'; [done|]. by intros ->.
Qed.

Lemma executeScheduledJobs_spec now s :
  Inv s →
  ∃ s', executeScheduledJobs now s = Returned s' tt ∧ Inv s' ∧ passEffect now s s'.
Proof.
  intros HI. unfold executeScheduledJobs, passEffect.
  destruct (generateTimeStamp now) as [ts|]; [|by exists s].
  unfold mbind, M_bind, get.
  destruct (pendingTransactions s !! ts) as [b|] eqn:Hb; [|by exists s].
  destruct (forEach_jobStep s ts b (bucketKeys b) HI Hb) as (s' & Hf & HI' & HP & HT).
  { eapply inv_nodup; eauto. }
  { done. }
  exists s'. rewrite bucket_filter_all in HP. done.
Qed.

Lemma timeTickCheck_spec now previousMinute s :
  Inv s →
  ∃ s1 s2, executeScheduledJobs (TimeDate now) s = Returned s1 tt ∧
    executeScheduledJobs (TimeDate previousMinute) s1 = Returned s2 tt ∧
    timeTickCheck now previousMinute s = Returned s2 tt ∧
    Inv s1 ∧ Inv s2 ∧
    passEffect (TimeDate now) s s1 ∧ passEffect (TimeDate previousMinute) s1 s2.
Proof.
  intros HI.
  destruct (executeScheduledJobs_spec (TimeDate now) s HI) as (s1 & H1 & HI1 & HE1).
  destruct (executeScheduledJobs_spec (TimeDate previousMinute) s1 HI1)
    as (s2 & H2 & HI2 & HE2).
  exists s1, s2. split; [done|]. split; [done|]. split; [|done].
  unfold timeTickCheck, mbind, M_bind. by rewrite H1.
Qed.

(** ** Submission *)

Lemma generateTimeStamp_TimeDate d : is_Some (generateTimeStamp (TimeDate d)).
Proof. unfold generateTimeStamp. eauto. Qed.

Lemma addTransaction_rejected transaction now newId s :
  rejectedSubmission transaction now s →
  addTransaction transaction now newId s = Returned s ERROR.
Proof.
  unfold rejectedSubmission, addTransaction.
  destruct transaction as [tt ty c d a]; simpl.
  intros H.
  destruct tt as [| | |t]; try done; 
  destruct ty as [ty|]; try done; destruct c as [c|]; try done;
  destruct d as [d|]; try done; destruct a as [| |n]; try done; simpl;
  try (case_decide; [done|]); unfold mbind, M_bind, get; simpl;
  try (case_decide; [done|]); try (case_decide; [done|]); try done;
  exfalso; destruct H as [H|[H|[H|[H|[H|[H|[H|[H|[H|[H|H]]]]]]]]]]; try done.
  all: try (destruct H as (x & [= <-] & H); try done).
  all: tauto.
Qed.

Lemma addTransaction_accepted t ty c d n now newId s ts :
  ty ∈ allowedTransactionTypes →
  is_Some (accounts s !! c) → is_Some (accounts s !! d) →
  ¬ getTime now - getTime t > 0 →
  generateTimeStamp (TimeDate t) = Some ts →
  addTransaction
    {| reqTransactionTime := TimeDate t; reqType := Some ty; reqCredit := Some c;
       reqDebit := Some d; reqAmount := AmountNumber n |} now newId s =
  afterSubmission now (newRecord t ty c d newId n ts)
    (submittedState (newRecord t ty c d newId n ts) s).
Proof.
  intros Hty [ac Hc] [ad Hd] Hnow Hts.
  unfold addTransaction. cbn [reqTransactionTime reqType reqCredit reqDebit reqAmount].
  cbn [isValidDate negb]. rewrite decide_False by (intros H; by apply H).
  unfold mbind at 1. unfold M_bind, get.
  rewrite decide_False by (rewrite Hc, Hd; intros [?|?]; discriminate).
  rewrite decide_False by done. rewrite Hts.
  reflexivity.
Qed.

Lemma addTransaction_cases transaction now s :
  rejectedSubmission transaction now s ∨
  ∃ t ty c d n ts,
    transaction = {| reqTransactionTime := TimeDate t; reqType := Some ty;
                     reqCredit := Some c; reqDebit := Some d;
                     reqAmount := AmountNumber n |} ∧
    ty ∈ allowedTransactionTypes ∧
    is_Some (accounts s !! c) ∧ is_Some (accounts s !! d) ∧
    ¬ getTime now - getTime t > 0 ∧
    generateTimeStamp (TimeDate t) = Some ts.
Proof.
  unfold rejectedSubmission. destruct transaction as [tt ty c d a]; simpl.
  destruct tt as [| | |t];
    [left; by left|left; by (do 5 right; left)|left; by (do 5 right; left)|].
  destruct ty as [ty|]; [|left; by (right; left)].
  destruct c as [c|]; [|left; by (do 2 right; left)].
  destruct d as [d|]; [|left; by (do 3 right; left)].
  destruct a as [| |n]; [left; by (do 4 right; left)|left; by (do 9 right; left)|].
  destruct (decide (ty ∈ allowedTransactionTypes)) as [Hty|Hty];
    [|left; do 6 right; left; eauto].
  destruct (accounts s !! c) as [ac|] eqn:Hc; [|left; do 7 right; left; eauto].
  destruct (accounts s !! d) as [ad|] eqn:Hd; [|left; do 8 right; left; eauto].
  destruct (decide (getTime now - getTime t > 0)) as [Hnow|Hnow];
    [left; do 10 right; eauto|].
  destruct (generateTimeStamp_TimeDate t) as [ts Hts].
  right. exists t, ty, c, d, n, ts. eauto 10.
Qed.

Lemma submittedState_pending nt s :
  Inv s → transactions s !! id nt = None →
  pendingTransactions (submittedState nt s) =
    <[timeStamp nt := default [] (pendingTransactions s !! timeStamp nt) ++ [(id nt, nt)]]>
      (pendingTransactions s).
Proof.
  intros HI Hfresh. unfold submittedState. simpl.
  destruct (pendingTransactions s !! timeStamp nt) as [b|] eqn:Hb; simpl.
  - apply map_eq. intros ts. rewrite lookup_alter, lookup_insert.
    destruct (decide (timeStamp nt = ts)) as [<-|Hts]; [|done]. rewrite Hb. simpl.
    rewrite bucketSet_fresh; [done|]. intros Hin.
    destruct (inv_pending _ HI _ _ _ Hb Hin) as (t & Ht & _). congruence.
  - apply map_eq. intros ts. rewrite lookup_alter, !lookup_insert.
    destruct (decide (timeStamp nt = ts)) as [<-|Hts]; [|done].
    by rewrite decide_True.
Qed.

Lemma submittedState_Inv nt s :
  Inv s → transactions s !! id nt = None → status nt = PENDING →
  Inv (submittedState nt s).
Proof.
  intros HI Hfresh Hp.
  pose proof (submittedState_pending nt s HI Hfresh) as HP.
  assert (transactions (submittedState nt s) = <[id nt := nt]> (transactions s))
    as HT by done.
  set (b0 := default [] (pendingTransactions s !! timeStamp nt)) in *.
  assert (NoDup (bucketKeys b0) ∧
          ∀ k, k ∈ bucketKeys b0 →
            ∃ t, transactions s !! k = Some t ∧ timeStamp t = timeStamp nt ∧
                 status t = PENDING) as [Hnd0 Hin0].
  { unfold b0. destruct (pendingTransactions s !! timeStamp nt) as [b|] eqn:Hb; simpl.
    - split; [eapply inv_nodup; eauto|]. intros k. eapply inv_pending; eauto.
    - split; [constructor|]. intros k Hk. by apply elem_of_nil in Hk. }
  assert (∀ ts b, ts ≠ timeStamp nt ∨ is_Some (pendingTransactions s !! timeStamp nt) →
            pendingTransactions s !! ts = Some b →
            ∃ b', pendingTransactions (submittedState nt s) !! ts = Some b' ∧
                  ∀ k, k ∈ bucketKeys b → k ∈ bucketKeys b') as Hmono.
  { intros ts b Hor Hb. rewrite HP, lookup_insert. case_decide as Hts.
    - subst ts. eexists. split; [done|]. intros k Hk.
      rewrite bucketKeys_snoc, elem_of_app. left. unfold b0. by rewrite Hb.
    - eauto. }
  split.
  - intros ts b. rewrite HP, lookup_insert. case_decide as Hts.
    + intros [= <-]. rewrite bucketKeys_snoc. apply NoDup_app. split; [done|].
      split; [|apply NoDup_singleton].
      intros k Hk ->%list_elem_of_singleton.
      destruct (Hin0 _ Hk) as (t & Ht & _). congruence.
    + eapply inv_nodup; eauto.
  - intros ts b k. rewrite HP, HT, lookup_insert. case_decide as Hts.
    + intros [= <-]. rewrite bucketKeys_snoc, elem_of_app, list_elem_of_singleton.
      intros [Hk| ->].
      * destruct (Hin0 _ Hk) as (t & Ht & Hts' & Hp').
        rewrite lookup_insert_ne by congruence. subst ts. eauto.
      * rewrite lookup_insert_eq. eauto.
    + intros Hb Hk. destruct (inv_pending _ HI _ _ _ Hb Hk) as (t & Ht & Hts' & Hp').
      rewrite lookup_insert_ne by congruence. eauto.
  - intros k t. rewrite HT, lookup_insert. case_decide as Hk.
    + intros [= <-]. split; [auto|]. rewrite HP, lookup_insert_eq.
      eexists. split; [done|]. intros _. subst k.
      rewrite bucketKeys_snoc, elem_of_app, list_elem_of_singleton. auto.
    + intros Ht. destruct (inv_record _ HI _ _ Ht) as (Hst & b & Hb & Hin).
      split; [done|].
      destruct (Hmono (timeStamp t) b) as (b' & Hb' & Hsub); [|done|eauto].
      destruct (decide (timeStamp t = timeStamp nt)) as [e|]; [|auto].
      right. rewrite <- e. eauto.
Qed.

(** ** The exported operations and the states they reach *)

Lemma afterSubmission_spec now nt s :
  Inv s →
  ∃ s', afterSubmission now nt s = Returned s' (id nt) ∧ Inv s' ∧
    if decide (generateTimeStamp (TimeDate now) = Some (timeStamp nt))
    then executeScheduledJobs (TimeDate now) s = Returned s' tt ∧
         passEffect (TimeDate now) s s'
    else s' = s.
Proof.
  intros HI. unfold afterSubmission, mbind, M_bind.
  case_decide as Hts; [|by exists s].
  destruct (executeScheduledJobs_spec (TimeDate now) s HI) as (s' & He & HI' & HE).
  exists s'. by rewrite He.
Qed.

Lemma executeTransaction_Inv tid s :
  Inv s →
  ∃ s' r, executeTransaction tid s = Returned s' r ∧ Inv s'.
Proof.
  intros HI.
  destruct (executeTransaction_cases tid s)
    as [He|(t & c & d & Hid & Ht & Hv & Hc & Hd & [(b & Hb & He)|[Hb He]])].
  - eauto.
  - eexists _, _. split; [exact He|]. by apply completedState_Inv.
  - destruct (inv_record _ HI _ _ Ht) as (_ & b & Hb' & _). congruence.
Qed.

Lemma addTransaction_Inv transaction now newId s :
  Inv s → transactions s !! newId = None →
  ∃ s' r, addTransaction transaction now newId s = Returned s' r ∧ Inv s'.
Proof.
  intros HI Hfresh.
  destruct (addTransaction_cases transaction now s)
    as [Hrej|(t & ty & c & d & n & ts & -> & Hty & Hc & Hd & Hnow & Hts)].
  - rewrite addTransaction_rejected by done. eauto.
  - rewrite (addTransaction_accepted _ _ _ _ _ _ _ _ ts) by done.
    set (nt := newRecord t ty c d newId n ts).
    destruct (afterSubmission_spec now nt (submittedState nt s))
      as (s' & He & HI' & _); [by apply submittedState_Inv|]. eauto.
Qed.

Lemma runOp_Inv o s : Inv s → admissible o s → Inv (runOp o s).
Proof.
  intros HI Hadm. destruct o as [|transaction now newId|tid|now prev]; simpl.
  - by apply (Inv_ext s).
  - destruct (addTransaction_Inv transaction now newId s HI Hadm) as (s' & r & -> & ?).
    done.
  - destruct (executeTransaction_Inv tid s HI) as (s' & r & -> & ?). done.
  - destruct (timeTickCheck_spec now prev s HI) as (s1 & s2 & _ & _ & -> & _ & ? & _).
    done.
Qed.

Lemma reachable_Inv s : reachable s → Inv s.
Proof.
  induction 1 as [|o s _ IH Hadm]; [apply Inv_initialState|by apply runOp_Inv].
Qed.

(** ** Conservation of funds *)



(** A call that returns COMPLETED comes from the success path. *)
Lemma executeTransaction_completed tid s s' :
  executeTransaction tid s = Returned s' COMPLETED →
  ∃ t c d b, tid ≠ EmptyString ∧ transactions s !! tid = Some t ∧
    validateTransaction s (Some t) = true ∧
    accounts s !! credit t = Some c ∧ accounts s !! debit t = Some d ∧
    pendingTransactions s !! timeStamp t = Some b ∧
    s' = completedState tid t c d b s.
Proof.
  intros He.
  destruct (executeTransaction_cases tid s)
    as [He'|(t & c & d & Hid & Ht & Hv & Hc & Hd & [(b & Hb & He')|[Hb He']])];
    rewrite He' in He; [discriminate| |discriminate].
  injection He as <-. exists t, c, d, b. done.
Qed.


(** ** The pending index and the status *)

Lemma Inv_indexed_iff s k :
  Inv s →
  indexedPending k s ↔ ∃ t, transactions s !! k = Some t ∧ status t = PENDING.
Proof.
  intros HI. split.
  - intros (ts & b & Hb & Hk).
    destruct (inv_pending _ HI _ _ _ Hb Hk) as (t & Ht & _ & Hp). eauto.
  - intros (t & Ht & Hp).
    destruct (inv_record _ HI _ _ Ht) as (_ & b & Hb & Hin).
    exists (timeStamp t), b. auto.
Qed.

(** C8.  In every state reachable by the exported operations an id is in
    the pending index exactly when its record in the main table has status
    PENDING; so a record that is COMPLETED or REJECTED is not indexed. *)
Theorem pending_index_iff_status s k :
  reachable s →
  (indexedPending k s ↔ ∃ t, transactions s !! k = Some t ∧ status t = PENDING) ∧
  (∀ t, transactions s !! k = Some t →
        status t = COMPLETED ∨ status t = REJECTED → ¬ indexedPending k s).
Proof.
  intros HI%reachable_Inv. split; [by apply Inv_indexed_iff|].
  intros t Ht Hst (t' & Ht' & Hp)%Inv_indexed_iff; [|done].
  assert (t' = t) as -> by congruence. rewrite Hp in Hst.
  destruct Hst; discriminate.
Qed.

(** ** Running a pass twice *)



(** ** Immediate execution *)


(** ** Submission errors *)



(** ** Insufficient funds *)



(** ** Status transitions *)

Lemma passEffect_statusStep now s s' k t :
  passEffect now s s' → transactions s !! k = Some t →
  ∃ t', transactions s' !! k = Some t' ∧ statusStep t t'.
Proof.
  unfold passEffect. intros HE Ht.
  destruct (generateTimeStamp now) as [ts|]; [|subst s'; exists t; by split; [|left]].
  destruct (pendingTransactions s !! ts) as [b|]; [|subst s'; exists t; by split; [|left]].
  destruct HE as [_ HT]. destruct (HT k) as [Hout Hin].
  destruct (decide (k ∈ bucketKeys b)) as [Hk|Hk].
  - destruct (Hin Hk) as (t0 & st & Ht0 & Hp & _ & Hst & Ht').
    assert (t0 = t) as -> by congruence.
    exists (setStatus st t). split; [done|]. right. eauto.
  - exists t. rewrite Hout by done. split; [done|by left].
Qed.

Lemma statusStep_trans t t1 t2 :
  statusStep t t1 → statusStep t1 t2 → statusStep t t2.
Proof.
  intros [->|(Hp & st & Hst & ->)]; [done|].
  intros [->|(Hp' & _)]; [right; eauto|].
  simpl in Hp'. destruct Hst as [->| ->]; discriminate.
Qed.

Lemma statusStep_status t t' :
  statusStep t t' →
  status t' = status t ∨
  (status t = PENDING ∧ (status t' = COMPLETED ∨ status t' = REJECTED)).
Proof.
  intros [->|(Hp & st & Hst & ->)]; [by left|]. right. simpl.
  split; [done|]. destruct Hst as [->| ->]; auto.
Qed.

(** C3, as the code has it.  Along every exported operation from a
    reachable state a record stays in the table and its status either stays
    as it is or moves from PENDING to COMPLETED or REJECTED, with one
    exception: a direct call of [executeTransaction] on a REJECTED record
    whose validation now passes moves it to COMPLETED.  COMPLETED is never
    left and PENDING is never entered again. *)
Theorem status_transitions o s k t :
  reachable s → admissible o s →
  transactions s !! k = Some t →
  ∃ t', transactions (runOp o s) !! k = Some t' ∧
    (status t' = status t ∨
     (status t = PENDING ∧ (status t' = COMPLETED ∨ status t' = REJECTED)) ∨
     (o = OpExecuteTransaction k ∧ status t = REJECTED ∧ status t' = COMPLETED)).
Proof.
  intros HI%reachable_Inv Hadm Ht.
  destruct o as [|transaction now newId|tid|now prev]; simpl in *.
  - exists t. auto.
  - destruct (addTransaction_cases transaction now s)
      as [Hrej|(t0 & ty & c & d & n & ts & -> & Hty & Hc & Hd & Hnow & Hts)].
    + rewrite addTransaction_rejected by done. exists t. auto.
    + rewrite (addTransaction_accepted _ _ _ _ _ _ _ _ ts) by done.
      set (nt := newRecord t0 ty c d newId n ts).
      assert (Inv (submittedState nt s)) as HI1 by (by apply submittedState_Inv).
      assert (transactions (submittedState nt s) !! k = Some t) as Ht1.
      { simpl. rewrite lookup_insert_ne; [done|]. intros <-. congruence. }
      destruct (afterSubmission_spec now nt (submittedState nt s) HI1)
        as (s' & -> & _ & Hpass). simpl.
      case_decide.
      * destruct Hpass as [_ HE].
        destruct (passEffect_statusStep _ _ _ _ _ HE Ht1) as (t' & Ht' & Hstep).
        exists t'. split; [done|]. apply statusStep_status in Hstep. tauto.
      * subst s'. exists t. auto.
  - destruct (executeTransaction_cases tid s)
      as [He|(t0 & c & d & Hid & Ht0 & Hv & Hc & Hd & [(b & Hb & He)|[Hb He]])];
      rewrite He; simpl.
    + exists t. auto.
    + rewrite lookup_insert. case_decide as Hk; [|exists t; auto].
      subst tid. assert (t0 = t) as -> by congruence.
      exists (setStatus COMPLETED t). split; [done|]. simpl.
      destruct (inv_record _ HI _ _ Ht) as ([Hs|[Hs|Hs]] & _); rewrite Hs; auto.
    + destruct (inv_record _ HI _ _ Ht0) as (_ & b & Hb' & _). congruence.
  - destruct (timeTickCheck_spec now prev s HI)
      as (s1 & s2 & _ & _ & -> & _ & _ & HE1 & HE2). simpl.
    destruct (passEffect_statusStep _ _ _ _ _ HE1 Ht) as (t1 & Ht1 & Hstep1).
    destruct (passEffect_statusStep _ _ _ _ _ HE2 Ht1) as (t2 & Ht2 & Hstep2).
    exists t2. split; [done|].
    pose proof (statusStep_status _ _ (statusStep_trans _ _ _ Hstep1 Hstep2)). tauto.
Qed.

(** ** The set of accounts *)

Lemma keepsAccounts_bind {A B} (m : M A) (k : A → M B) :
  keepsAccounts m → (∀ a, keepsAccounts (k a)) → keepsAccounts (m ≫= k).
Proof.
  intros Hm Hk s. unfold mbind, M_bind. specialize (Hm s).
  destruct (m s) as [s' a|s']; simpl in *; [|done].
  by rewrite Hk.
Qed.

Lemma keepsAccounts_ret {A} (a : A) : keepsAccounts (mret a).
Proof. done. Qed.

Lemma transferAccounts_dom tid t c d m :
  m !! credit t = Some c → m !! debit t = Some d →
  dom (transferAccounts tid t c d m) = dom m.
Proof.
  intros Hc Hd. unfold transferAccounts. case_decide.
  - by rewrite dom_insert_lookup_L.
  - rewrite dom_insert_lookup_L by (by rewrite lookup_insert_ne).
    by rewrite dom_insert_lookup_L.
Qed.

Lemma executeTransaction_keepsAccounts tid : keepsAccounts (executeTransaction tid).
Proof.
  intros s.
  destruct (executeTransaction_cases tid s)
    as [He|(t & c & d & Hid & Ht & Hv & Hc & Hd & [(b & Hb & He)|[Hb He]])];
    rewrite He; simpl; [done|by apply transferAccounts_dom..].
Qed.

Lemma deletePending_keepsAccounts ts k : keepsAccounts (deletePending ts k).
Proof. intros s. unfold deletePending. by destruct (pendingTransactions s !! ts). Qed.

Lemma writeStatus_keepsAccounts k st : keepsAccounts (writeStatus k st).
Proof. intros s. unfold writeStatus. by destruct (transactions s !! k). Qed.

Lemma jobStep_keepsAccounts ts k : keepsAccounts (jobStep ts k).
Proof.
  unfold jobStep. apply keepsAccounts_bind; [apply executeTransaction_keepsAccounts|].
  intros r. case_decide; [|done].
  apply keepsAccounts_bind; [apply deletePending_keepsAccounts|].
  intros _. apply writeStatus_keepsAccounts.
Qed.

Lemma forEach_keepsAccounts {A} (l : list A) (body : A → M unit) :
  (∀ x, keepsAccounts (body x)) → keepsAccounts (forEach l body).
Proof.
  intros Hbody. induction l as [|x l IH]; [done|].
  simpl. apply keepsAccounts_bind; [apply Hbody|]. by intros _.
Qed.

Lemma executeScheduledJobs_keepsAccounts now : keepsAccounts (executeScheduledJobs now).
Proof.
  unfold executeScheduledJobs. destruct (generateTimeStamp now) as [ts|]; [|done].
  intros s. unfold mbind, M_bind, get.
  destruct (pendingTransactions s !! ts) as [b|]; [|done].
  apply forEach_keepsAccounts. intros k. apply jobStep_keepsAccounts.
Qed.

Lemma timeTickCheck_keepsAccounts now prev : keepsAccounts (timeTickCheck now prev).
Proof.
  unfold timeTickCheck. apply keepsAccounts_bind; intros;
    apply executeScheduledJobs_keepsAccounts.
Qed.

Lemma afterSubmission_keepsAccounts now nt : keepsAccounts (afterSubmission now nt).
Proof.
  unfold afterSubmission. apply keepsAccounts_bind; [|done].
  case_decide; [apply executeScheduledJobs_keepsAccounts|done].
Qed.

Lemma addTransaction_keepsAccounts transaction now newId :
  keepsAccounts (addTransaction transaction now newId).
Proof.
  intros s.
  destruct (addTransaction_cases transaction now s)
    as [Hrej|(t & ty & c & d & n & ts & -> & Hty & Hc & Hd & Hnow & Hts)].
  - by rewrite addTransaction_rejected.
  - rewrite (addTransaction_accepted _ _ _ _ _ _ _ _ ts) by done.
    by rewrite afterSubmission_keepsAccounts.
Qed.


(** ** A submission in the current bucket *)











(** ** Sample runs *)

Lemma reachable_seededLedger : reachable seededLedger.
Proof. apply reachable_step; [apply reachable_initial|exact I]. Qed.

Lemma reachable_pendingLedger : reachable pendingLedger.
Proof. apply reachable_step; [apply reachable_seededLedger|reflexivity]. Qed.


Lemma reachable_rejectedLedger : reachable rejectedLedger.
Proof.
  apply reachable_step; [apply reachable_step|];
    [apply reachable_seededLedger|reflexivity|vm_compute; reflexivity].
Qed.

Lemma reachable_selfTransferLedger : reachable selfTransferLedger.
Proof.
  apply reachable_step; [apply reachable_step|];
    [apply reachable_seededLedger|reflexivity|vm_compute; reflexivity].
Qed.



Lemma pending_index_iff_status_witness :
  indexedPending "t1" pendingLedger ↔
  ∃ t, transactions pendingLedger !! "t1" = Some t ∧ status t = PENDING.
Proof.
  exact (proj1 (pending_index_iff_status pendingLedger "t1" reachable_pendingLedger)).
Defined.




Lemma status_transitions_witness :
  ∃ t', transactions (runOp (OpExecuteTransaction "t1") rejectedLedger) !! "t1" = Some t' ∧
        status t' = COMPLETED.
Proof.
  destruct (status_transitions (OpExecuteTransaction "t1") rejectedLedger "t1"
              (setStatus REJECTED (newRecord sampleNow FUND "B" "A" "t1" 50 "26-11-03-07-05")))
    as (t' & Ht' & Hst).
  - apply reachable_rejectedLedger.
  - exact I.
  - vm_compute. reflexivity.
  - exists t'. split; [exact Ht'|].
    destruct Hst as [H|[[H _]|(_ & _ & H)]]; [| |exact H].
    + vm_compute in Ht'. injection Ht' as <-. vm_compute in H. discriminate H.
    + vm_compute in H. discriminate H.
Defined.

(** C3 fails as stated: in [rejectedLedger], reached by [init] and two
    submissions, the record "t1" is REJECTED; a direct call of the exported
    [executeTransaction] on it returns COMPLETED and leaves it COMPLETED,
    moving 50 from B to A. *)
Lemma rejected_record_completes :
  reachable rejectedLedger ∧
  status <$> transactions rejectedLedger !! "t1" = Some REJECTED ∧
  (∃ s', executeTransaction "t1" rejectedLedger = Returned s' COMPLETED ∧
         status <$> transactions s' !! "t1" = Some COMPLETED ∧
         balance <$> accounts rejectedLedger !! "B" = Some 60 ∧
         balance <$> accounts s' !! "B" = Some 10).
Proof.
  split; [apply reachable_rejectedLedger|]. split; [vm_compute; reflexivity|].
  eexists. split; [vm_compute; reflexivity|].
  repeat split; vm_compute; reflexivity.
Qed.

(** ** The applied-transaction lists *)

(** What lines 219-224 make of the two lists after a successful execution
    between two distinct accounts: both are built from the list of the
    credit account; the list the debit account had is dropped. *)
Lemma executeTransaction_pastTransactions tid s s' :
  executeTransaction tid s = Returned s' COMPLETED →
  ∃ t c d,
    transactions s !! tid = Some t ∧
    accounts s !! credit t = Some c ∧ accounts s !! debit t = Some d ∧
    (credit t ≠ debit t →
       pastTransactions <$> accounts s' !! credit t
         = Some (filter (λ i, i ≠ tid) (pastTransactions c) ++ [tid]) ∧
       pastTransactions <$> accounts s' !! debit t
         = Some (filter (λ i, i ≠ tid) (pastTransactions c) ++ [tid])) ∧
    (credit t = debit t →
       pastTransactions <$> accounts s' !! credit t
         = Some (filter (λ i, i ≠ tid) (pastTransactions c) ++ [tid; tid])).
Proof.
  intros He.
  destruct (executeTransaction_completed _ _ _ He)
    as (t & c & d & b & Hid & Ht & Hv & Hc & Hd & Hb & ->).
  exists t, c, d. do 3 (split; [done|]).
  assert (filter (λ i, i ≠ tid) (filter (λ i, i ≠ tid) (pastTransactions c))
          = filter (λ i, i ≠ tid) (pastTransactions c)) as Hff.
  { rewrite list_filter_filter. apply list_filter_iff. tauto. }
  simpl. unfold transferAccounts. split.
  - intros Hne. rewrite decide_False by done.
    rewrite lookup_insert_ne, !lookup_insert_eq by done. simpl. by rewrite Hff.
  - intros Heq. rewrite decide_True by done. rewrite lookup_insert_eq. simpl.
    by rewrite Hff, <- app_assoc.
Qed.

(** C4 on the code.  In [selfTransferLedger], reached by [init] and two
    submissions, account A has the list ["t1"; "t1"] (the self-transfer "t1"
    was pushed twice) and account B the empty list.  Executing the pending
    "t2" from A to B returns COMPLETED and leaves B with A's list followed by
    "t2", not with its own former entries followed by "t2". *)
Theorem debit_list_taken_from_credit :
  reachable selfTransferLedger ∧
  pastTransactions <$> accounts selfTransferLedger !! "A" = Some ["t1"; "t1"] ∧
  pastTransactions <$> accounts selfTransferLedger !! "B" = Some [] ∧
  ∃ s', executeTransaction "t2" selfTransferLedger = Returned s' COMPLETED ∧
        pastTransactions <$> accounts s' !! "A" = Some ["t1"; "t1"; "t2"] ∧
        pastTransactions <$> accounts s' !! "B" = Some ["t1"; "t1"; "t2"].
Proof.
  split; [apply reachable_selfTransferLedger|].
  split; [vm_compute; reflexivity|]. split; [vm_compute; reflexivity|].
  eexists. split; [vm_compute; reflexivity|].
  split; vm_compute; reflexivity.
Qed.

(** ** An index entry without a record *)

(** The callback on an id that has no record: [executeTransaction] reports
    the error, the entry is deleted from the bucket, and the assignment to
    [transactions[transactionId].status] raises. *)
Lemma jobStep_orphan ts k b s :
  pendingTransactions s !! ts = Some b → transactions s !! k = None →
  jobStep ts k s = Thrown (setPending <[ts := bucketDelete k b]> s).
Proof.
  intros Hb Hk. rewrite jobStep_unfold.
  rewrite executeTransaction_invalid by auto. rewrite decide_True by done.
  unfold mbind, M_bind, deletePending, writeStatus. rewrite Hb. simpl.
  by rewrite Hk.
Qed.


(** ** A self-transfer scheduled in the current minute *)



(** * Further properties of the module *)

(** ** Validation and the results of an execution *)


(** X3.  A call of [executeTransaction] that returns gives either the error
    marker, and then the state is exactly the state of the call, or the
    completed status, and then the record is COMPLETED, is no longer indexed
    under its time stamp and is listed in the history; it never returns the
    rejected status. *)
Theorem executeTransaction_results tid s s' r :
  executeTransaction tid s = Returned s' r →
  (r = ERROR ∧ s' = s) ∨
  (r = COMPLETED ∧
   ∃ t, transactions s !! tid = Some t ∧
        transactions s' !! tid = Some (setStatus COMPLETED t) ∧
        (∀ b, pendingTransactions s' !! timeStamp t = Some b → tid ∉ bucketKeys b) ∧
        inHistory (timeStamp t) tid s').
Proof.
  intros He.
  destruct (executeTransaction_cases tid s)
    as [He'|(t & c & d & Hid & Ht & Hv & Hc & Hd & [(b & Hb & He')|[Hb He']])];
    rewrite He' in He; [injection He as <- <-; by left| |discriminate].
  injection He as <- <-.
  right. split; [done|]. exists t. split; [done|]. simpl.
  rewrite !lookup_insert_eq. split; [done|]. split.
  - intros b' [= <-]. rewrite elem_of_bucketKeys_delete. tauto.
  - unfold inHistory, getHistory. simpl. unfold completedIndex.
    rewrite lookup_alter, decide_True by done.
    destruct (completedTransactions s !! timeStamp t) as [l|] eqn:Hl.
    + rewrite Hl. simpl. eexists. split; [done|].
      unfold refSet. case_decide; [done|]. rewrite elem_of_app.
      right. by apply list_elem_of_singleton.
    + rewrite lookup_insert_eq. simpl. eexists. split; [done|].
      unfold refSet. rewrite decide_False by apply not_elem_of_nil.
      by apply list_elem_of_singleton.
Qed.

Lemma executeTransaction_results_witness :
  ∃ t, transactions pendingLedger !! "t1" = Some t ∧
       inHistory (timeStamp t) "t1" (runOp (OpExecuteTransaction "t1") pendingLedger).
Proof.
  destruct (executeTransaction_results "t1" pendingLedger
              (runOp (OpExecuteTransaction "t1") pendingLedger) COMPLETED)
    as [[H _]|(_ & t & Ht & _ & _ & Hh)].
  - vm_compute. reflexivity.
  - discriminate H.
  - exists t. split; [exact Ht|exact Hh].
Defined.



(** ** Submissions that wait *)

Lemma bucketKeys_bucketSet k v (b : Bucket) : k ∈ bucketKeys (bucketSet k v b).
Proof.
  unfold bucketKeys. induction b as [|e b IH]; simpl.
  - by left.
  - case_decide; simpl; [by left|by right].
Qed.

(** X5.  A submission that passes the submission-time checks and whose
    bucket is not the bucket of now returns the new id and only stores the
    request: the record is retrievable with status PENDING and the submitted
    accounts and amount, it is indexed under its time stamp (as the last
    entry of the bucket when the id is new there), and the accounts, the
    history, the other records and the other buckets are untouched.  The
    funds of the credit account play no part. *)
Theorem future_submission_waits transaction now newId s :
  ¬ rejectedSubmission transaction now s →
  generateTimeStamp (reqTransactionTime transaction) ≠ generateTimeStamp (TimeDate now) →
  ∃ s' t ts,
    addTransaction transaction now newId s = Returned s' newId ∧
    generateTimeStamp (reqTransactionTime transaction) = Some ts ∧
    getTransaction newId s' = Some t ∧
    status t = PENDING ∧ id t = newId ∧ timeStamp t = ts ∧
    reqCredit transaction = Some (credit t) ∧ reqDebit transaction = Some (debit t) ∧
    reqAmount transaction = AmountNumber (amount t) ∧
    indexedPending newId s' ∧
    (∀ b, pendingTransactions s !! ts = Some b → newId ∉ bucketKeys b →
          pendingTransactions s' !! ts = Some (b ++ [(newId, t)])) ∧
    (pendingTransactions s !! ts = None →
          pendingTransactions s' !! ts = Some [(newId, t)]) ∧
    (∀ ts', ts' ≠ ts → pendingTransactions s' !! ts' = pendingTransactions s !! ts') ∧
    (∀ k, k ≠ newId → transactions s' !! k = transactions s !! k) ∧
    accounts s' = accounts s ∧ getHistory s' = getHistory s.
Proof.
  intros Hok Hdiff.
  destruct (addTransaction_cases transaction now s)
    as [Hrej|(t & ty & c & d & n & ts & -> & Hty & Hc & Hd & Hnow & Hts)]; [done|].
  cbn [reqTransactionTime] in Hdiff.
  rewrite (addTransaction_accepted _ _ _ _ _ _ _ _ ts) by done.
  set (nt := newRecord t ty c d newId n ts).
  exists (submittedState nt s), nt, ts.
  split.
  { unfold afterSubmission, mbind, M_bind. rewrite decide_False; [done|].
    simpl. congruence. }
  split; [done|]. split; [apply lookup_insert_eq|]. do 6 (split; [done|]).
  assert (∀ ts', pendingTransactions (submittedState nt s) !! ts' =
            if decide (ts = ts')
            then Some (bucketSet newId nt (default [] (pendingTransactions s !! ts)))
            else pendingTransactions s !! ts') as HP.
  { intros ts'. simpl. rewrite lookup_alter.
    destruct (decide (ts = ts')) as [<-|Hne].
    - destruct (pendingTransactions s !! ts) as [b|] eqn:Hb; simpl.
      + by rewrite Hb.
      + by rewrite lookup_insert_eq.
    - destruct (pendingTransactions s !! ts); [done|]. by rewrite lookup_insert_ne. }
  split.
  { exists ts. eexists. rewrite HP, decide_True by done. split; [done|].
    apply bucketKeys_bucketSet. }
  split.
  { intros b Hb Hnew. rewrite HP, decide_True, Hb by done. simpl.
    by rewrite bucketSet_fresh. }
  split.
  { intros Hb. by rewrite HP, decide_True, Hb. }
  split.
  { intros ts' Hne. by rewrite HP, decide_False. }
  split; [|done].
  intros k Hk. simpl. by rewrite lookup_insert_ne.
Qed.

Lemma future_submission_waits_witness :
  ∃ s' t,
    addTransaction (sampleRequest sampleLater "A" "B" 150) sampleNow "t1" seededLedger
      = Returned s' "t1" ∧
    getTransaction "t1" s' = Some t ∧ status t = PENDING ∧
    accounts s' = accounts seededLedger.
Proof.
  destruct (future_submission_waits (sampleRequest sampleLater "A" "B" 150) sampleNow
              "t1" seededLedger)
    as (s' & t & ts & H1 & _ & H2 & H3 & _ & _ & _ & _ & _ & _ & _ & _ & _ & _ & H4 & _).
  - intros H. pose proof (addTransaction_rejected _ sampleNow "t1" _ H) as e.
    vm_compute in e. discriminate e.
  - vm_compute. discriminate.
  - exists s', t. repeat split; assumption.
Defined.



(** ** What the operations keep *)

(** X8.  No function but [init] adds or removes an account: after a
    submission, a direct execution or a tick, whether it returns or raises,
    the account ids are the ones before. *)
Theorem only_init_changes_account_ids o s :
  o ≠ OpInit → dom (accounts (runOp o s)) = dom (accounts s).
Proof.
  intros Ho. destruct o as [|transaction now newId|tid|now prev]; [done|..]; simpl.
  - apply addTransaction_keepsAccounts.
  - apply executeTransaction_keepsAccounts.
  - apply timeTickCheck_keepsAccounts.
Qed.

Lemma only_init_changes_account_ids_witness :
  dom (accounts (runOp (OpTick sampleLater sampleNow) pendingLedger))
    = dom (accounts pendingLedger).
Proof. apply only_init_changes_account_ids. discriminate. Defined.



Lemma setStatus_same t : setStatus (status t) t = t.
Proof. by destruct t. Qed.

Lemma setStatus_setStatus st st' t : setStatus st' (setStatus st t) = setStatus st' t.
Proof. done. Qed.

Lemma statusStep_setStatus t t' : statusStep t t' → ∃ st, t' = setStatus st t.
Proof.
  intros [->|(_ & st & _ & ->)]; [exists (status t); by rewrite setStatus_same|eauto].
Qed.

(** X10.  A stored record is never deleted and nothing but its status is
    ever written: after any exported operation from a reachable state the
    record under an id is the former one with, at most, another status. *)
Theorem records_persist o s k t :
  reachable s → admissible o s →
  transactions s !! k = Some t →
  ∃ st, transactions (runOp o s) !! k = Some (setStatus st t).
Proof.
  intros HI%reachable_Inv Hadm Ht.
  destruct o as [|transaction now newId|tid|now prev]; simpl in *.
  - exists (status t). by rewrite setStatus_same.
  - destruct (addTransaction_cases transaction now s)
      as [Hrej|(t0 & ty & c & d & n & ts & -> & Hty & Hc & Hd & Hnow & Hts)].
    + rewrite addTransaction_rejected by done. exists (status t).
      by rewrite setStatus_same.
    + rewrite (addTransaction_accepted _ _ _ _ _ _ _ _ ts) by done.
      set (nt := newRecord t0 ty c d newId n ts).
      assert (Inv (submittedState nt s)) as HI1 by (by apply submittedState_Inv).
      assert (transactions (submittedState nt s) !! k = Some t) as Ht1.
      { simpl. rewrite lookup_insert_ne; [done|]. intros <-. congruence. }
      destruct (afterSubmission_spec now nt (submittedState nt s) HI1)
        as (s' & -> & _ & Hpass). simpl.
      case_decide.
      * destruct Hpass as [_ HE].
        destruct (passEffect_statusStep _ _ _ _ _ HE Ht1) as (t' & Ht' & Hstep).
        destruct (statusStep_setStatus _ _ Hstep) as (st & ->). eauto.
      * subst s'. exists (status t). by rewrite setStatus_same.
  - destruct (executeTransaction_cases tid s)
      as [He|(t0 & c & d & Hid & Ht0 & Hv & Hc & Hd & [(b & Hb & He)|[Hb He]])];
      rewrite He; simpl.
    + exists (status t). by rewrite setStatus_same.
    + rewrite lookup_insert. case_decide as Hk.
      * subst tid. assert (t0 = t) as -> by congruence. eauto.
      * exists (status t). by rewrite setStatus_same.
    + rewrite lookup_insert. case_decide as Hk.
      * subst tid. assert (t0 = t) as -> by congruence. eauto.
      * exists (status t). by rewrite setStatus_same.
  - destruct (timeTickCheck_spec now prev s HI)
      as (s1 & s2 & _ & _ & -> & _ & _ & HE1 & HE2). simpl.
    destruct (passEffect_statusStep _ _ _ _ _ HE1 Ht) as (t1 & Ht1 & Hstep1).
    destruct (passEffect_statusStep _ _ _ _ _ HE2 Ht1) as (t2 & Ht2 & Hstep2).
    destruct (statusStep_setStatus _ _ (statusStep_trans _ _ _ Hstep1 Hstep2)) as (st & ->).
    eauto.
Qed.

Lemma records_persist_witness :
  ∃ st, transactions (runOp (OpTick sampleLater sampleNow) pendingLedger) !! "t1"
        = Some (setStatus st (newRecord sampleLater FUND "A" "B" "t1" 10 "26-11-03-07-07")).
Proof.
  apply records_persist.
  - apply reachable_pendingLedger.
  - exact I.
  - vm_compute. reflexivity.
Defined.

(** ** Properties of the account table that every execution keeps *)

Section account_properties.
Variable P : gmap string Account → Prop.

(** [P] survives a validated transfer. *)
Hypothesis P_transfer : ∀ tid t c d m,
  m !! credit t = Some c → m !! debit t = Some d →
  0 < amount t ≤ balance c →
  P m → P (transferAccounts tid t c d m).







End account_properties.







(** ** What a tick leaves in the pending index *)




(** ** A proof rule for invariants of the reachable states *)

Section state_invariant.
Variable J : State → Prop.

Hypothesis J_initial : J initialState.
Hypothesis J_init : ∀ s, J s → J (finalState (init s)).
Hypothesis J_completed : ∀ s k t c d b,
  Inv s → J s → transactions s !! k = Some t →
  pendingTransactions s !! timeStamp t = Some b →
  J (completedState k t c d b s).
Hypothesis J_rejected : ∀ s k t b,
  Inv s → J s → transactions s !! k = Some t → status t = PENDING →
  pendingTransactions s !! timeStamp t = Some b →
  J (rejectedState k t b s).
Hypothesis J_submitted : ∀ s nt,
  Inv s → J s → transactions s !! id nt = None → status nt = PENDING →
  J (submittedState nt s).

Lemma forEach_keeps ts l s b :
  Inv s → J s → pendingTransactions s !! ts = Some b →
  NoDup l → l ⊆ bucketKeys b →
  ∃ s', forEach l (jobStep ts) s = Returned s' tt ∧ Inv s' ∧ J s'.
Proof.
  revert s b. induction l as [|k l IH]; intros s b HI HJ Hb Hnd Hsub.
  { by exists s. }
  apply NoDup_cons in Hnd as [Hkl Hnd].
  assert (k ∈ bucketKeys b) as Hk by (apply Hsub; by left).
  destruct (jobStep_spec s ts b k HI Hb Hk) as (t & Ht & Hp & Hts & Hstep).
  subst ts.
  assert (∃ s1, jobStep (timeStamp t) k s = Returned s1 tt ∧ Inv s1 ∧ J s1 ∧
            pendingTransactions s1 !! timeStamp t = Some (bucketDelete k b))
    as (s1 & Hj & HI1 & HJ1 & HP1).
  { destruct Hstep as [[_ Hj]|(c & d & _ & Hj)]; eexists; (split; [exact Hj|]).
    - split; [by apply rejectedState_Inv|]. split; [by apply J_rejected|].
      apply lookup_insert_eq.
    - split; [by apply completedState_Inv|]. split; [by apply J_completed|].
      apply lookup_insert_eq. }
  destruct (IH s1 (bucketDelete k b)) as (s' & Hf & HI' & HJ'); try done.
  { intros k' Hk'. rewrite elem_of_bucketKeys_delete. split.
    - apply Hsub. by right.
    - by intros ->. }
  exists s'. split; [|done]. simpl. unfold mbind, M_bind. by rewrite Hj.
Qed.

Lemma executeScheduledJobs_keeps now s :
  Inv s → J s →
  ∃ s', executeScheduledJobs now s = Returned s' tt ∧ Inv s' ∧ J s'.
Proof.
  intros HI HJ. unfold executeScheduledJobs.
  destruct (generateTimeStamp now) as [ts|]; [|by exists s].
  unfold mbind, M_bind, get.
  destruct (pendingTransactions s !! ts) as [b|] eqn:Hb; [|by exists s].
  apply (forEach_keeps ts _ s b); try done. eapply inv_nodup; eauto.
Qed.

Lemma runOp_keeps o s : Inv s → J s → admissible o s → J (runOp o s).
Proof.
  intros HI HJ Hadm. destruct o as [|transaction now newId|tid|now prev]; simpl.
  - by apply J_init.
  - destruct (addTransaction_cases transaction now s)
      as [Hrej|(t & ty & c & d & n & ts & -> & Hty & Hc & Hd & Hnow & Hts)].
    + by rewrite addTransaction_rejected.
    + rewrite (addTransaction_accepted _ _ _ _ _ _ _ _ ts) by done.
      set (nt := newRecord t ty c d newId n ts).
      assert (Inv (submittedState nt s)) as HI1 by (by apply submittedState_Inv).
      assert (J (submittedState nt s)) as HJ1 by (by apply J_submitted).
      unfold afterSubmission, mbind, M_bind. case_decide; [|done].
      destruct (executeScheduledJobs_keeps (TimeDate now) _ HI1 HJ1)
        as (s' & -> & _ & HJ'). done.
  - destruct (executeTransaction_cases tid s)
      as [He|(t & c & d & Hid & Ht & Hv & Hc & Hd & [(b & Hb & He)|[Hb He]])];
      rewrite He; simpl.
    + done.
    + by apply J_completed.
    + destruct (inv_record _ HI _ _ Ht) as (_ & b & Hb' & _). congruence.
  - unfold timeTickCheck, mbind, M_bind.
    destruct (executeScheduledJobs_keeps (TimeDate now) s HI HJ)
      as (s1 & -> & HI1 & HJ1).
    destruct (executeScheduledJobs_keeps (TimeDate prev) s1 HI1 HJ1)
      as (s2 & -> & _ & HJ2). done.
Qed.

Lemma reachable_keeps s : reachable s → J s.
Proof.
  induction 1 as [|o s Hr IH Hadm]; [done|].
  apply runOp_keeps; [by apply reachable_Inv|done..].
Qed.
End state_invariant.

(** ** The history *)

Lemma elem_of_refSet k k' l : k' ∈ refSet k l ↔ k' = k ∨ k' ∈ l.
Proof.
  unfold refSet. case_decide as Hk.
  - split; [auto|]. by intros [->|?].
  - rewrite elem_of_app, list_elem_of_singleton. tauto.
Qed.

Lemma NoDup_refSet k l : NoDup l → NoDup (refSet k l).
Proof.
  intros Hl. unfold refSet. case_decide as Hk; [done|].
  apply NoDup_app. split; [done|]. split; [|apply NoDup_singleton].
  intros x Hx ->%list_elem_of_singleton. done.
Qed.

Lemma completedIndex_lookup k ts C ts' :
  completedIndex k ts C !! ts' =
    if decide (ts = ts') then Some (refSet k (default [] (C !! ts))) else C !! ts'.
Proof.
  unfold completedIndex. rewrite lookup_alter.
  destruct (decide (ts = ts')) as [<-|Hne].
  - destruct (C !! ts) as [l|] eqn:Hl; simpl; [by rewrite Hl|by rewrite lookup_insert_eq].
  - destruct (C !! ts); [done|]. by rewrite lookup_insert_ne.
Qed.

Lemma completedIndex_elem k ts C ts' k' :
  (∃ l, completedIndex k ts C !! ts' = Some l ∧ k' ∈ l) ↔
  (ts' = ts ∧ k' = k) ∨ (∃ l, C !! ts' = Some l ∧ k' ∈ l).
Proof.
  rewrite completedIndex_lookup. destruct (decide (ts = ts')) as [<-|Hne].
  - split.
    + intros (l & [= <-] & [->|Hin]%elem_of_refSet); [by left|right].
      destruct (C !! ts) as [l|]; [eauto|]. by apply elem_of_nil in Hin.
    + intros [[_ ->]|(l & Hl & Hin)]; eexists; (split; [done|]);
        apply elem_of_refSet; [by left|]. right. by rewrite Hl.
  - split; [by right|]. intros [[-> _]|?]; done.
Qed.

Lemma historyInvariant_completed s k t c d b :
  Inv s → historyInvariant s → transactions s !! k = Some t →
  pendingTransactions s !! timeStamp t = Some b →
  historyInvariant (completedState k t c d b s).
Proof.
  intros HI [HA HN] Ht Hb. split.
  - intros ts k'. unfold inHistory, getHistory. simpl.
    rewrite completedIndex_elem, lookup_insert.
    specialize (HA ts k'). unfold inHistory, getHistory in HA. rewrite HA.
    destruct (decide (k = k')) as [<-|Hne].
    + split.
      * intros [[-> _]|(t' & Ht' & Hst & Hts)]; [eauto|].
        assert (t' = t) as -> by congruence. eauto.
      * intros (t' & [= <-] & _ & Hts). auto.
    + split.
      * intros [[_ ->]|?]; done.
      * auto.
  - intros ts l. unfold getHistory in *. simpl. rewrite completedIndex_lookup.
    case_decide; [|apply HN]. intros [= <-]. apply NoDup_refSet.
    destruct (completedTransactions s !! timeStamp t) as [l|] eqn:Hl; simpl;
      [by apply (HN (timeStamp t))|constructor].
Qed.

Lemma historyInvariant_rejected s k t b :
  Inv s → historyInvariant s → transactions s !! k = Some t → status t = PENDING →
  pendingTransactions s !! timeStamp t = Some b →
  historyInvariant (rejectedState k t b s).
Proof.
  intros HI [HA HN] Ht Hp Hb. split; [|done].
  intros ts k'. specialize (HA ts k').
  unfold inHistory, getHistory in *. simpl. rewrite HA, lookup_insert.
  destruct (decide (k = k')) as [<-|Hne]; [|done].
  split.
  - intros (t' & Ht' & Hst & _). assert (t' = t) as -> by congruence.
    rewrite Hp in Hst. discriminate.
  - intros (t' & [= <-] & Hst & _). discriminate.
Qed.

Lemma historyInvariant_submitted s nt :
  Inv s → historyInvariant s → transactions s !! id nt = None → status nt = PENDING →
  historyInvariant (submittedState nt s).
Proof.
  intros HI [HA HN] Hfresh Hp. split; [|done].
  intros ts k'. specialize (HA ts k').
  unfold inHistory, getHistory in *. simpl. rewrite HA, lookup_insert.
  destruct (decide (id nt = k')) as [<-|Hne]; [|done].
  split.
  - intros (t' & Ht' & _). congruence.
  - intros (t' & [= <-] & Hst & _). rewrite Hp in Hst. discriminate.
Qed.

(** X11.  In every state reached by the exported operations the history
    returned by [getHistory] lists, under each time stamp, exactly the ids of
    the records that are COMPLETED and carry that time stamp, each of them
    once; a PENDING or REJECTED transaction is never in the history. *)
Theorem history_lists_completed s :
  reachable s →
  (∀ ts k, inHistory ts k s ↔
     ∃ t, getTransaction k s = Some t ∧ status t = COMPLETED ∧ timeStamp t = ts) ∧
  (∀ ts l, getHistory s !! ts = Some l → NoDup l).
Proof.
  revert s. apply (reachable_keeps historyInvariant).
  - split; [|intros ts l; unfold getHistory; simpl; by rewrite lookup_empty].
    intros ts k. unfold inHistory, getHistory. simpl. split.
    + intros (l & Hl & _). by rewrite lookup_empty in Hl.
    + intros (t & Ht & _). by rewrite lookup_empty in Ht.
  - done.
  - apply historyInvariant_completed.
  - apply historyInvariant_rejected.
  - apply historyInvariant_submitted.
Qed.

Lemma history_lists_completed_witness :
  inHistory "26-11-03-07-05" "t2" rejectedLedger ∧
  ¬ inHistory "26-11-03-07-05" "t1" rejectedLedger.
Proof.
  destruct (history_lists_completed rejectedLedger reachable_rejectedLedger) as [H _].
  split.
  - apply H. eexists. split; [vm_compute; reflexivity|]. split; reflexivity.
  - intros (t & Ht & Hst & _)%H. vm_compute in Ht. injection Ht as <-.
    discriminate Hst.
Defined.

(** ** Time stamps *)

Lemma formatTimeStampNumber_two n :
  0 ≤ n < 100 →
  ∃ a b, formatTimeStampNumber n = String a (String b EmptyString).
Proof.
  intros Hn.
  assert (Forall (λ n, String.length (formatTimeStampNumber n) = 2%nat) (seqZ 0 100)) as H.
  { apply (bool_decide_unpack _). by vm_compute. }
  rewrite Forall_forall in H. specialize (H n).
  destruct (formatTimeStampNumber n) as [|a [|b [|c r]]];
    try (exfalso; assert (n ∈ seqZ 0 100) as Hin by (apply elem_of_seqZ; lia);
         specialize (H Hin); discriminate H).
  eauto.
Qed.

Lemma formatTimeStampNumber_inj n m :
  0 ≤ n < 100 → 0 ≤ m < 100 →
  formatTimeStampNumber n = formatTimeStampNumber m → n = m.
Proof.
  assert (NoDup (formatTimeStampNumber <$> seqZ 0 100)) as Hnd.
  { apply (bool_decide_unpack _). by vm_compute. }
  assert (∀ l : list Z, NoDup (formatTimeStampNumber <$> l) →
            ∀ x y, x ∈ l → y ∈ l →
            formatTimeStampNumber x = formatTimeStampNumber y → x = y) as Hinj.
  { induction l as [|z l IH]; intros Hl x y Hx Hy Hxy.
    { by apply elem_of_nil in Hx. }
    rewrite fmap_cons in Hl. apply NoDup_cons in Hl as [Hz Hl].
    apply elem_of_cons in Hx as [->|Hx]; apply elem_of_cons in Hy as [->|Hy];
      [done| | |by apply IH].
    - exfalso. apply Hz. rewrite Hxy. by apply list_elem_of_fmap_2.
    - exfalso. apply Hz. rewrite <- Hxy. by apply list_elem_of_fmap_2. }
  intros Hn Hm. apply (Hinj _ Hnd); apply elem_of_seqZ; lia.
Qed.

(** X1.  For dates in the years 2000 to 2099 the time stamp is 14 characters
    long, and two dates have the same time stamp exactly when they agree on
    year, month, day, hour and minute: a bucket of the pending index is one
    minute. *)
Theorem generateTimeStamp_same_minute d1 d2 :
  calendarDate d1 → calendarDate d2 →
  (generateTimeStamp (TimeDate d1) = generateTimeStamp (TimeDate d2) ↔ sameMinute d1 d2) ∧
  ∃ ts, generateTimeStamp (TimeDate d1) = Some ts ∧ String.length ts = 14%nat.
Proof.
  intros (Hy1 & Hm1 & Hd1 & Hh1 & Hi1) (Hy2 & Hm2 & Hd2 & Hh2 & Hi2).
  unfold generateTimeStamp, sameMinute.
  destruct (formatTimeStampNumber_two (getFullYear d1 - 2000)) as (y1 & y1' & Ey1); [lia|].
  destruct (formatTimeStampNumber_two (getMonth d1 + 1)) as (m1 & m1' & Em1); [lia|].
  destruct (formatTimeStampNumber_two (getDate d1)) as (a1 & a1' & Ea1); [lia|].
  destruct (formatTimeStampNumber_two (getHours d1)) as (h1 & h1' & Eh1); [lia|].
  destruct (formatTimeStampNumber_two (getMinutes d1)) as (i1 & i1' & Ei1); [lia|].
  destruct (formatTimeStampNumber_two (getFullYear d2 - 2000)) as (y2 & y2' & Ey2); [lia|].
  destruct (formatTimeStampNumber_two (getMonth d2 + 1)) as (m2 & m2' & Em2); [lia|].
  destruct (formatTimeStampNumber_two (getDate d2)) as (a2 & a2' & Ea2); [lia|].
  destruct (formatTimeStampNumber_two (getHours d2)) as (h2 & h2' & Eh2); [lia|].
  destruct (formatTimeStampNumber_two (getMinutes d2)) as (i2 & i2' & Ei2); [lia|].
  split; [split|].
  - cbv zeta. rewrite Ey1, Em1, Ea1, Eh1, Ei1, Ey2, Em2, Ea2, Eh2, Ei2.
    intros E. vm_compute in E.
    injection E as -> -> -> -> -> -> -> -> -> ->.
    rewrite <- Ey2 in Ey1. rewrite <- Em2 in Em1. rewrite <- Ea2 in Ea1.
    rewrite <- Eh2 in Eh1. rewrite <- Ei2 in Ei1.
    apply formatTimeStampNumber_inj in Ey1, Em1, Ea1, Eh1, Ei1; lia.
  - intros (-> & -> & -> & -> & ->). done.
  - cbv zeta. rewrite Ey1, Em1, Ea1, Eh1, Ei1. eexists. split; [done|].
    by vm_compute.
Qed.

Lemma generateTimeStamp_same_minute_witness :
  generateTimeStamp (TimeDate (sampleDate 5 0)) = generateTimeStamp (TimeDate sampleNow).
Proof.
  apply (generateTimeStamp_same_minute (sampleDate 5 0) sampleNow).
  - unfold calendarDate. simpl. lia.
  - unfold calendarDate. simpl. lia.
  - unfold sameMinute. simpl. repeat split.
Defined.

(** ** The outcome of one entry of a pass *)


